(** * Interval extraction from a sequence of motion flags

    A shallow embedding of [c__motions2intervals_idx]
    (src/reolink/interval/c_interval.pyx) and the properties of the
    interval list it returns.

    The function is Cython: its locals are C variables.  [int] is the 32-bit
    signed C integer, [bint] a C boolean, [(int, int)] a C pair; the argument
    and the result are Python lists.  The [while] loop is embedded as a body
    function on the record of the locals, iterated under a fuel bound. *)

From Stdlib Require Import ZArith List Bool Lia Sorting.Sorted.
Import ListNotations.

#[local] Open Scope Z_scope.

(** ** C integers *)

Module CInt.

Definition int_min : Z := - 2 ^ 31.
Definition int_max : Z := 2 ^ 31 - 1.

(** The value an [int] holds after it is assigned the integer [z]:
    [z] itself when it fits, its two's complement truncation otherwise. *)
Definition wrap (z : Z) : Z := (z + 2 ^ 31) mod 2 ^ 32 - 2 ^ 31.

Definition in_range (z : Z) : Prop := int_min <= z <= int_max.

End CInt.

Arguments CInt.wrap : simpl never.

(** ** Python values *)

Inductive exn : Type :=
| IndexError.

(** [motions[i]] on a Python list: a negative index counts from the end,
    an index outside the list raises [IndexError]. *)
Definition list_getitem {A : Type} (l : list A) (i : Z) : exn + A :=
  let n := Z.of_nat (length l) in
  let j := if i <? 0 then i + n else i in
  if (0 <=? j) && (j <? n)
  then match nth_error l (Z.to_nat j) with
       | Some a => inr a
       | None => inl IndexError
       end
  else inl IndexError.

(** The sample at position [j] of the sequence, in the mathematical reading
    used by the properties: defined for [0 <= j < N] only. *)
Definition sample (motions : list bool) (j : Z) : option bool :=
  if j <? 0 then None else nth_error motions (Z.to_nat j).

(** ** The locals of [c__motions2intervals_idx] *)

Definition interval : Type := (Z * Z)%type.

Record locals : Type := mkLocals {
  motion_intervals : list interval;
  motion_idx : interval;
  x_idx : Z;
  x : bool;
  motion_list_size : Z;
  i : Z
}.

(** The locals after the six [cdef] lines.  [len(motions)] is a
    [Py_ssize_t] stored into an [int]. *)
Definition init (motions : list bool) : locals :=
  {| motion_intervals := [];
     motion_idx := (0, 0);
     x_idx := -1;
     x := false;
     motion_list_size := CInt.wrap (Z.of_nat (length motions));
     i := 0 |}.

Definition set_x (v : bool) (s : locals) : locals :=
  mkLocals (motion_intervals s) (motion_idx s) (x_idx s) v
           (motion_list_size s) (i s).

Definition set_x_idx (v : Z) (s : locals) : locals :=
  mkLocals (motion_intervals s) (motion_idx s) (CInt.wrap v) (x s)
           (motion_list_size s) (i s).

Definition set_motion_idx (v : interval) (s : locals) : locals :=
  mkLocals (motion_intervals s) (CInt.wrap (fst v), CInt.wrap (snd v))
           (x_idx s) (x s) (motion_list_size s) (i s).

(** [motion_intervals.append(v)] *)
Definition append (v : interval) (s : locals) : locals :=
  mkLocals (motion_intervals s ++ [v]) (motion_idx s) (x_idx s) (x s)
           (motion_list_size s) (i s).

(** [i += 1] *)
Definition incr_i (s : locals) : locals :=
  mkLocals (motion_intervals s) (motion_idx s) (x_idx s) (x s)
           (motion_list_size s) (CInt.wrap (i s + 1)).

(** ** The loop *)

(** One pass through the body of the [while], from [x = motions[i]] to the
    [continue] that is taken.  The last [if not x:] has no [else]: were it
    not taken, control would reach the loop test with the locals as they
    are. *)
Definition body (motions : list bool) (s : locals) : exn + locals :=
  match list_getitem motions (i s) with
  | inl e => inl e
  | inr v =>
      let s := set_x v s in
      if x_idx s =? -1 then
        let s := if x s then set_x_idx (i s) s else s in
        inr (incr_i s)
      else if x s then
        inr (incr_i s)
      else if negb (x s) then
        let s := set_motion_idx (x_idx s, i s) s in
        let s := append (motion_idx s) s in
        let s := set_x_idx (-1) s in
        inr (incr_i s)
      else
        inr s
  end.

Inductive outcome : Type :=
| OutOfFuel
| Raised (e : exn)
| Returned (l : list interval).

(** [while i < motion_list_size: ...] followed by
    [return motion_intervals]. *)
Fixpoint while (fuel : nat) (motions : list bool) (s : locals) : outcome :=
  match fuel with
  | O => OutOfFuel
  | S fuel' =>
      if i s <? motion_list_size s then
        match body motions s with
        | inl e => Raised e
        | inr s' => while fuel' motions s'
        end
      else Returned (motion_intervals s)
  end.

Definition c__motions2intervals_idx (fuel : nat) (motions : list bool)
  : outcome :=
  while fuel motions (init motions).

(** ** What the properties speak of *)

(** Every sample of the half-open range [lo, hi) is true. *)
Definition all_true (motions : list bool) (lo hi : Z) : Prop :=
  forall j, lo <= j < hi -> sample motions j = Some true.

(** The run that starts at [lo] cannot be extended to the left. *)
Definition left_maximal (motions : list bool) (lo : Z) : Prop :=
  lo = 0 \/ sample motions (lo - 1) = Some false.

(** An interval as the loop closes it: a non-empty range of true samples,
    with no true sample just before it, that stops on a false sample. *)
Record run_closed (motions : list bool) (v : interval) : Prop := {
  rc_bounds : 0 <= fst v < snd v;
  rc_true : all_true motions (fst v) (snd v);
  rc_left : left_maximal motions (fst v);
  rc_right : sample motions (snd v) = Some false
}.

(** [a] ends strictly before [b] starts. *)
Definition before (a b : interval) : Prop := snd a < fst b.

(** The state of the run being scanned: none open, or one open since
    [x_idx]. *)
Definition run_state (motions : list bool) (s : locals) : Prop :=
  (x_idx s = -1 /\ left_maximal motions (i s))
  \/ (0 <= x_idx s < i s
      /\ all_true motions (x_idx s) (i s)
      /\ left_maximal motions (x_idx s)).

(** The loop invariant, at the loop test. *)
Record Inv (motions : list bool) (s : locals) : Prop := {
  inv_size : motion_list_size s <= Z.of_nat (length motions)
             /\ motion_list_size s <= CInt.int_max;
  inv_i : 0 <= i s;
  inv_run : run_state motions s;
  inv_closed : Forall (run_closed motions) (motion_intervals s);
  inv_below : Forall (fun v => snd v < i s
                               /\ (x_idx s <> -1 -> snd v < x_idx s))
                     (motion_intervals s);
  inv_sorted : StronglySorted before (motion_intervals s)
}.

(** The locals the loop test can see: those of the entry, and those a pass
    through the body leaves when the test had let it in. *)
Inductive reachable (motions : list bool) : locals -> Prop :=
| reach_init : reachable motions (init motions)
| reach_body s s' :
    reachable motions s ->
    i s < motion_list_size s ->
    body motions s = inr s' ->
    reachable motions s'.

(** What holds of the list that is returned. *)
Definition Post (motions : list bool) (l : list interval) : Prop :=
  Forall (run_closed motions) l /\ StronglySorted before l.

(** The iterations left before the loop test fails. *)
Definition remaining (s : locals) : nat :=
  Z.to_nat (motion_list_size s - i s).

(** ** The scan, sample by sample

    The definitions of this section are not code of the function: they say,
    on the list itself, what one sample does to the run being scanned, so
    that the loop can be compared with them and its behaviour on
    concatenated inputs stated. *)

(** The input is one whose length an [int] holds. *)
Definition fits (motions : list bool) : Prop :=
  Z.of_nat (length motions) <= CInt.int_max.

(** The start of the open run ([-1]: none) after the sample [v] at index
    [idx], when it was [opened] before. *)
Definition open_next (v : bool) (idx opened : Z) : Z :=
  if opened =? -1 then (if v then idx else -1)
  else if v then opened else -1.

(** The interval that the sample [v] at index [idx] closes, if any. *)
Definition closed_by (v : bool) (idx opened : Z) : list interval :=
  if opened =? -1 then []
  else if v then [] else [(opened, idx)].

(** The intervals closed while scanning [ms], whose first sample has index
    [idx], from the run state [opened]. *)
Fixpoint runs_from (ms : list bool) (idx opened : Z) : list interval :=
  match ms with
  | [] => []
  | v :: ms' =>
      closed_by v idx opened ++ runs_from ms' (idx + 1) (open_next v idx opened)
  end.

(** The run state after scanning [ms]. *)
Fixpoint open_after (ms : list bool) (idx opened : Z) : Z :=
  match ms with
  | [] => opened
  | v :: ms' => open_after ms' (idx + 1) (open_next v idx opened)
  end.

(** The run state moved [d] positions to the right. *)
Definition shift_open (d opened : Z) : Z :=
  if opened =? -1 then -1 else opened + d.

(** The intervals of [l] moved [d] positions to the right. *)
Definition shift (d : Z) (l : list interval) : list interval :=
  map (fun v => (fst v + d, snd v + d)) l.

(** The number of samples that the intervals of [l] span. *)
Definition covered (l : list interval) : Z :=
  fold_right (fun v acc => (snd v - fst v) + acc) 0 l.

(** The number of true samples of the input. *)
Definition count_true (motions : list bool) : Z :=
  Z.of_nat (count_occ bool_dec motions true).

(** The input does not stop inside a run: it is empty or ends on a false
    sample. *)
Definition ends_closed (motions : list bool) : Prop :=
  motions = [] \/ exists p, motions = p ++ [false].

(** What the scan knows of the samples before index [idx] when its run
    state is [opened]. *)
Definition scan_state (motions : list bool) (idx opened : Z) : Prop :=
  (opened = -1 /\ left_maximal motions idx)
  \/ (0 <= opened < idx
      /\ all_true motions opened idx
      /\ left_maximal motions opened).

(** The samples of a run that is open at index [idx]. *)
Definition pending (idx opened : Z) : Z :=
  if opened =? -1 then 0 else idx - opened.

(** ** Calls on the interpreter's heap

    The embedding above passes the lists by value.  To speak of one call
    after another it is embedded once more with the lists as Python has
    them: objects of a heap that outlives the call, reached through
    references.  [motions] is a reference to the caller's list,
    [cdef list motion_intervals = []] allocates a list and
    [motion_intervals.append] writes to it in place; the [int], [bint] and
    [(int, int)] locals are values of the frame, as before. *)

Module Py.

Inductive pyobj : Type :=
| PyBoolList (l : list bool)
| PyIntervalList (l : list interval).

Definition ref : Type := nat.

(** The objects allocated so far, by reference. *)
Definition heap : Type := list pyobj.

Definition deref (h : heap) (r : ref) : option pyobj := nth_error h r.

(** A new object: its reference is one that no object had before. *)
Definition alloc (h : heap) (o : pyobj) : ref * heap :=
  (length h, h ++ [o]).

(** The object behind [r] replaced in place. *)
Fixpoint store (h : heap) (r : ref) (o : pyobj) : heap :=
  match h, r with
  | [], _ => []
  | _ :: h', O => o :: h'
  | o' :: h', S r' => o' :: store h' r' o
  end.

(** The argument and the locals of one call. *)
Record frame : Type := mkFrame {
  motions : ref;
  motion_intervals : ref;
  motion_idx : interval;
  x_idx : Z;
  x : bool;
  motion_list_size : Z;
  i : Z
}.

Inductive outcome : Type :=
| OutOfFuel
| Raised (e : exn)
| TypeError
| Returned (r : ref).

(** [len(motions)]; the argument is declared [list motions]. *)
Definition len (h : heap) (r : ref) : option Z :=
  match deref h r with
  | Some (PyBoolList l) => Some (Z.of_nat (length l))
  | _ => None
  end.

(** [motions[i]] *)
Definition getitem (h : heap) (r : ref) (j : Z) : option (exn + bool) :=
  match deref h r with
  | Some (PyBoolList l) => Some (list_getitem l j)
  | _ => None
  end.

(** [motion_intervals.append(v)]: the list object is changed in place. *)
Definition append (h : heap) (r : ref) (v : interval) : option heap :=
  match deref h r with
  | Some (PyIntervalList l) => Some (store h r (PyIntervalList (l ++ [v])))
  | _ => None
  end.

Definition set_x (v : bool) (f : frame) : frame :=
  mkFrame (motions f) (motion_intervals f) (motion_idx f) (x_idx f) v
          (motion_list_size f) (i f).

Definition set_x_idx (v : Z) (f : frame) : frame :=
  mkFrame (motions f) (motion_intervals f) (motion_idx f) (CInt.wrap v) (x f)
          (motion_list_size f) (i f).

Definition set_motion_idx (v : interval) (f : frame) : frame :=
  mkFrame (motions f) (motion_intervals f)
          (CInt.wrap (fst v), CInt.wrap (snd v))
          (x_idx f) (x f) (motion_list_size f) (i f).

Definition incr_i (f : frame) : frame :=
  mkFrame (motions f) (motion_intervals f) (motion_idx f) (x_idx f) (x f)
          (motion_list_size f) (CInt.wrap (i f + 1)).

(** The six [cdef] lines, on entry with the argument [m]. *)
Definition enter (h : heap) (m : ref) : option (heap * frame) :=
  let (r, h1) := alloc h (PyIntervalList []) in
  match len h1 m with
  | Some n => Some (h1, mkFrame m r (0, 0) (-1) false (CInt.wrap n) 0)
  | None => None
  end.

Inductive step : Type :=
| Next (h : heap) (f : frame)
| Raise (e : exn)
| BadObject.

(** One pass through the body of the [while]. *)
Definition body (h : heap) (f : frame) : step :=
  match getitem h (motions f) (i f) with
  | None => BadObject
  | Some (inl e) => Raise e
  | Some (inr v) =>
      let f := set_x v f in
      if x_idx f =? -1 then
        let f := if x f then set_x_idx (i f) f else f in
        Next h (incr_i f)
      else if x f then
        Next h (incr_i f)
      else if negb (x f) then
        let f := set_motion_idx (x_idx f, i f) f in
        match append h (motion_intervals f) (motion_idx f) with
        | None => BadObject
        | Some h' =>
            let f := set_x_idx (-1) f in
            Next h' (incr_i f)
        end
      else
        Next h f
  end.

(** The loop and [return motion_intervals]: the reference is returned, and
    the heap is what the caller goes on with. *)
Fixpoint while (fuel : nat) (h : heap) (f : frame) : outcome * heap :=
  match fuel with
  | O => (OutOfFuel, h)
  | S fuel' =>
      if i f <? motion_list_size f then
        match body h f with
        | Next h' f' => while fuel' h' f'
        | Raise e => (Raised e, h)
        | BadObject => (TypeError, h)
        end
      else (Returned (motion_intervals f), h)
  end.

(** A call [c__motions2intervals_idx(m)] made in the heap [h]. *)
Definition call (fuel : nat) (h : heap) (m : ref) : outcome * heap :=
  match enter h m with
  | Some (h1, f) => while fuel h1 f
  | None => (TypeError, h)
  end.

End Py.

(** The frame [f] and the heap [h] of a call on the argument [m], made in
    the heap [h0], against the locals [s] of the embedding by value: the
    heap is [h0] and, after it, the list of the intervals closed so far. *)
Definition simulates (h0 : Py.heap) (m : Py.ref)
           (h : Py.heap) (f : Py.frame) (s : locals) : Prop :=
  h = h0 ++ [Py.PyIntervalList (motion_intervals s)]
  /\ Py.motions f = m
  /\ Py.motion_intervals f = length h0
  /\ Py.motion_idx f = motion_idx s
  /\ Py.x_idx f = x_idx s
  /\ Py.x f = x s
  /\ Py.motion_list_size f = motion_list_size s
  /\ Py.i f = i s.

(** * Proofs *)

Example scenario_empty :
  c__motions2intervals_idx 1 [] = Returned [].
Proof. reflexivity. Qed.

Example scenario_alternating :
  c__motions2intervals_idx 6 [false; true; false; true; false]
  = Returned [(1, 2); (3, 4)].
Proof. vm_compute. reflexivity. Qed.

Example scenario_all_true :
  c__motions2intervals_idx 4 [true; true; true] = Returned [].
Proof. vm_compute. reflexivity. Qed.

(** ** C integers and list access *)

Lemma wrap_in_range z : CInt.in_range z -> CInt.wrap z = z.
Proof.
  unfold CInt.in_range, CInt.int_min, CInt.int_max, CInt.wrap. intros H.
  rewrite Z.mod_small; lia.
Qed.

Lemma wrap_le_int_max z : CInt.wrap z <= CInt.int_max.
Proof.
  unfold CInt.wrap, CInt.int_max.
  pose proof (Z.mod_pos_bound (z + 2 ^ 31) (2 ^ 32) ltac:(lia)). lia.
Qed.

Lemma wrap_le_self z : 0 <= z -> CInt.wrap z <= z.
Proof.
  intros Hz. unfold CInt.wrap.
  pose proof (Z.mod_le (z + 2 ^ 31) (2 ^ 32) ltac:(lia) ltac:(lia)). lia.
Qed.

Lemma sample_bounds motions j v :
  sample motions j = Some v -> 0 <= j < Z.of_nat (length motions).
Proof.
  unfold sample. destruct (Z.ltb_spec j 0) as [Hj | Hj]; [discriminate |].
  intros H. assert (Hn : nth_error motions (Z.to_nat j) <> None) by congruence.
  apply nth_error_Some in Hn. lia.
Qed.

Lemma sample_In motions j v : sample motions j = Some v -> In v motions.
Proof.
  unfold sample. destruct (j <? 0); [discriminate |]. apply nth_error_In.
Qed.

Lemma getitem_sample motions j :
  0 <= j < Z.of_nat (length motions) ->
  exists v, list_getitem motions j = inr v /\ sample motions j = Some v.
Proof.
  intros Hj. unfold list_getitem, sample.
  destruct (Z.ltb_spec j 0) as [H0 | H0]; [lia |].
  destruct (Z.leb_spec 0 j) as [H1 | H1]; [| lia].
  destruct (Z.ltb_spec j (Z.of_nat (length motions))) as [H2 | H2]; [| lia].
  cbn [andb].
  destruct (nth_error motions (Z.to_nat j)) as [v |] eqn:E.
  - exists v. split; reflexivity.
  - apply nth_error_None in E. lia.
Qed.

Lemma sample_repeat b n j v : sample (repeat b n) j = Some v -> v = b.
Proof.
  intros H. apply sample_In in H. apply repeat_spec in H. exact H.
Qed.

Lemma sample_app_r motions tail j :
  Z.of_nat (length motions) <= j ->
  sample (motions ++ tail) j = sample tail (j - Z.of_nat (length motions)).
Proof.
  intros Hj. unfold sample.
  destruct (Z.ltb_spec j 0) as [H0 | H0]; [lia |].
  destruct (Z.ltb_spec (j - Z.of_nat (length motions)) 0) as [H1 | H1];
    [lia |].
  rewrite nth_error_app2 by lia. f_equal. lia.
Qed.

(** ** Sorted lists that grow at the end *)

Lemma StronglySorted_snoc {A : Type} (R : A -> A -> Prop) l b :
  StronglySorted R l -> Forall (fun a => R a b) l ->
  StronglySorted R (l ++ [b]).
Proof.
  induction 1 as [| a l Hl IH Ha]; intros Hb; cbn.
  - constructor; constructor.
  - inversion Hb as [| ? ? Hab Hlb]; subst.
    constructor; [apply IH; exact Hlb |].
    apply Forall_app. split; [exact Ha | constructor; [exact Hab | constructor]].
Qed.

Lemma StronglySorted_nth {A : Type} (R : A -> A -> Prop) l :
  StronglySorted R l ->
  forall p q a b, (p < q)%nat ->
    nth_error l p = Some a -> nth_error l q = Some b -> R a b.
Proof.
  induction 1 as [| c l Hl IH Hc]; intros p q a b Hpq Hp Hq.
  - destruct p; discriminate.
  - destruct q as [| q]; [lia |]. cbn in Hq.
    destruct p as [| p]; cbn in Hp.
    + injection Hp as ->. rewrite Forall_forall in Hc.
      apply Hc. eapply nth_error_In; eassumption.
    + eapply IH; [| eassumption | eassumption]. lia.
Qed.

(** ** The body keeps the invariant and moves [i] one step *)

Ltac assign :=
  cbv [incr_i set_x_idx set_x set_motion_idx append]; cbn.

Lemma init_Inv motions : Inv motions (init motions).
Proof.
  constructor; cbn.
  - split; [apply wrap_le_self; lia | apply wrap_le_int_max].
  - lia.
  - left. split; [reflexivity | left; reflexivity].
  - constructor.
  - constructor.
  - constructor.
Qed.

Lemma all_true_extend motions lo hi :
  all_true motions lo hi -> sample motions hi = Some true ->
  all_true motions lo (hi + 1).
Proof.
  intros H Hhi j Hj. destruct (Z.eq_dec j hi) as [-> | Hne]; [exact Hhi |].
  apply H. lia.
Qed.

Lemma body_step motions s :
  Inv motions s -> i s < motion_list_size s ->
  exists s', body motions s = inr s'
             /\ Inv motions s'
             /\ i s' = i s + 1
             /\ motion_list_size s' = motion_list_size s.
Proof.
  intros [[Hsz Hmax] Hi Hrun Hcl Hbel Hso] Hlt.
  destruct (getitem_sample motions (i s)) as (v & Hg & Hs); [lia |].
  destruct s as [mi midx xi xv n ix]. unfold run_state in Hrun. cbn in *.
  assert (Hw : CInt.wrap (ix + 1) = ix + 1).
  { apply wrap_in_range. unfold CInt.in_range, CInt.int_min, CInt.int_max in *.
    lia. }
  assert (Hwi : CInt.wrap ix = ix).
  { apply wrap_in_range. unfold CInt.in_range, CInt.int_min, CInt.int_max in *.
    lia. }
  unfold body. cbn. rewrite Hg. cbn.
  destruct (Z.eqb_spec xi (-1)) as [Hx | Hx].
  - (* looking for the start of an interval *)
    destruct Hrun as [[_ Hleft] | [Hr _]]; [| lia].
    destruct v; assign; rewrite Hw, ?Hwi.
    + eexists. split; [reflexivity |]. split; [| split; reflexivity].
      constructor; cbn; unfold run_state; cbn; try (split; assumption);
        try assumption; try lia.
      * right. split; [lia |]. split; [| exact Hleft].
        intros j Hj. replace j with ix by lia. exact Hs.
      * eapply Forall_impl; [| exact Hbel]. cbn. intros a [Ha _]. lia.
    + eexists. split; [reflexivity |]. split; [| split; reflexivity].
      constructor; cbn; unfold run_state; cbn; try (split; assumption);
        try assumption; try lia.
      * left. split; [exact Hx |]. right.
        replace (ix + 1 - 1) with ix by lia. exact Hs.
      * eapply Forall_impl; [| exact Hbel]. cbn. intros a [Ha _]. lia.
  - destruct Hrun as [[Hr _] | (Hr & Htrue & Hleft)]; [contradiction |].
    destruct v; assign; rewrite Hw.
    + (* the run goes on *)
      eexists. split; [reflexivity |]. split; [| split; reflexivity].
      constructor; cbn; unfold run_state; cbn; try (split; assumption);
        try assumption; try lia.
      * right. split; [lia |]. split; [| exact Hleft].
        apply all_true_extend; assumption.
      * eapply Forall_impl; [| exact Hbel]. cbn. intros a [Ha Hb].
        split; [lia | exact Hb].
    + (* the run is closed at [ix] *)
      assert (Hwx : CInt.wrap xi = xi).
      { apply wrap_in_range.
        unfold CInt.in_range, CInt.int_min, CInt.int_max in *. lia. }
      rewrite Hwx, Hwi.
      eexists. split; [reflexivity |]. split; [| split; reflexivity].
      constructor; cbn; unfold run_state; cbn; try (split; assumption);
        try assumption; try lia.
      * left. split; [reflexivity |]. right.
        replace (ix + 1 - 1) with ix by lia. exact Hs.
      * apply Forall_app. split; [exact Hcl |]. constructor; [| constructor].
        constructor; cbn; [lia | exact Htrue | exact Hleft | exact Hs].
      * apply Forall_app. split.
        -- eapply Forall_impl; [| exact Hbel]. cbn. intros a [Ha _].
           split; [lia | intros Hn; exfalso; apply Hn; reflexivity].
        -- constructor; [| constructor]. cbn.
           split; [lia | intros Hn; exfalso; apply Hn; reflexivity].
      * apply StronglySorted_snoc; [exact Hso |].
        eapply Forall_impl; [| exact Hbel]. cbn. intros a [_ Ha].
        unfold before. cbn. apply Ha. exact Hx.
Qed.

Lemma reachable_Inv motions s : reachable motions s -> Inv motions s.
Proof.
  induction 1 as [| s s' _ IH Hlt Hb]; [apply init_Inv |].
  destruct (body_step motions s IH Hlt) as (s1 & Hb1 & Hinv & _).
  congruence.
Qed.

(** ** The loop *)

Lemma while_returns motions fuel :
  forall s, Inv motions s -> (remaining s < fuel)%nat ->
    exists l, while fuel motions s = Returned l /\ Post motions l.
Proof.
  induction fuel as [| fuel IH]; intros s Hinv Hfuel; [lia |].
  cbn [while]. destruct (Z.ltb_spec (i s) (motion_list_size s)) as [Hlt | Hge].
  - destruct (body_step motions s Hinv Hlt) as (s' & Hb & Hinv' & Hi & Hn).
    rewrite Hb. apply IH; [exact Hinv' |].
    unfold remaining in *. rewrite Hi, Hn. lia.
  - exists (motion_intervals s). split; [reflexivity |].
    split; [apply (inv_closed _ _ Hinv) | apply (inv_sorted _ _ Hinv)].
Qed.

Lemma while_never_raises motions fuel :
  forall s e, Inv motions s -> while fuel motions s <> Raised e.
Proof.
  induction fuel as [| fuel IH]; intros s e Hinv; [discriminate |].
  cbn [while]. destruct (Z.ltb_spec (i s) (motion_list_size s)) as [Hlt | Hge];
    [| discriminate].
  destruct (body_step motions s Hinv Hlt) as (s' & Hb & Hinv' & _).
  rewrite Hb. apply IH. exact Hinv'.
Qed.

(** Fuel only decides whether the loop is seen to stop, never what it
    returns. *)
Lemma while_fuel_irrelevant motions fuel1 :
  forall fuel2 s l1 l2,
    while fuel1 motions s = Returned l1 ->
    while fuel2 motions s = Returned l2 ->
    l1 = l2.
Proof.
  induction fuel1 as [| fuel1 IH]; intros fuel2 s l1 l2 H1 H2;
    [discriminate |].
  destruct fuel2 as [| fuel2]; [discriminate |].
  cbn [while] in H1, H2.
  destruct (i s <? motion_list_size s).
  - destruct (body motions s) as [e | s']; [discriminate |].
    eapply IH; eassumption.
  - congruence.
Qed.

Lemma remaining_init motions : (remaining (init motions) <= length motions)%nat.
Proof.
  unfold remaining. cbn.
  pose proof (wrap_le_self (Z.of_nat (length motions)) ltac:(lia)). lia.
Qed.

Lemma returns_Post motions fuel :
  (length motions < fuel)%nat ->
  exists l, c__motions2intervals_idx fuel motions = Returned l
            /\ Post motions l.
Proof.
  intros Hfuel. apply while_returns; [apply init_Inv |].
  pose proof (remaining_init motions). lia.
Qed.

Lemma Post_In motions l s e :
  Post motions l -> In (s, e) l -> run_closed motions (s, e).
Proof.
  intros [Hcl _] Hin. rewrite Forall_forall in Hcl. apply Hcl. exact Hin.
Qed.

(** A list none of whose elements can exist is empty. *)
Lemma nil_of_no_member {A : Type} (l : list A) :
  (forall a, In a l -> False) -> l = [].
Proof.
  destruct l as [| a l]; [reflexivity |].
  intros H. exfalso. apply (H a). left. reflexivity.
Qed.

(** * The properties of the interval list *)

(** C1.  A run of true samples that is still open when the scan reaches the
    end of the sequence is not emitted.  For every sequence [pre] followed by
    [k] true samples, every emitted interval ends inside [pre], so the
    trailing run [(length pre, length pre + k)] is not among them; and the
    all-true input of any length [k] yields the empty list, not [[(0, k)]]. *)
Theorem trailing_run_dropped (pre : list bool) (k fuel : nat) :
  (length pre + k < fuel)%nat ->
  c__motions2intervals_idx fuel (repeat true k) = Returned []
  /\ exists l,
       c__motions2intervals_idx fuel (pre ++ repeat true k) = Returned l
       /\ forall s e, In (s, e) l -> e < Z.of_nat (length pre).
Proof.
  intros Hfuel.
  assert (Hend : forall motions s e,
             run_closed (motions ++ repeat true k) (s, e) ->
             e < Z.of_nat (length motions)).
  { intros motions s e [_ _ _ Hr]. cbn in Hr.
    destruct (Z.lt_ge_cases e (Z.of_nat (length motions))) as [Hlt | Hge];
      [exact Hlt |].
    rewrite sample_app_r in Hr by exact Hge.
    apply sample_repeat in Hr. discriminate. }
  split.
  - destruct (returns_Post (repeat true k) fuel) as (l & Hrun & Hpost).
    { rewrite repeat_length. lia. }
    rewrite Hrun. f_equal. apply nil_of_no_member. intros [s e] Hin.
    pose proof (Post_In _ _ _ _ Hpost Hin) as Hrc.
    pose proof (rc_bounds _ _ Hrc) as Hb. cbn in Hb.
    specialize (Hend [] s e Hrc). cbn in Hend. lia.
  - destruct (returns_Post (pre ++ repeat true k) fuel) as (l & Hrun & Hpost).
    { rewrite length_app, repeat_length. lia. }
    exists l. split; [exact Hrun |]. intros s e Hin.
    eapply Hend. eapply Post_In; eassumption.
Qed.

Lemma trailing_run_dropped_witness :
  c__motions2intervals_idx 7 (repeat true 2) = Returned []
  /\ exists l,
       c__motions2intervals_idx 7 ([true; false; true; false] ++ repeat true 2)
       = Returned l
       /\ forall s e, In (s, e) l -> e < 4.
Proof.
  apply (trailing_run_dropped [true; false; true; false] 2 7). cbn. lia.
Defined.

(** C2.  Every sample inside an emitted interval is true: for every interval
    [(s, e)] of the returned list and every index [j] with [s <= j < e],
    [motions[j]] is true. *)
Theorem emitted_all_true (motions : list bool) (fuel : nat) :
  (length motions < fuel)%nat ->
  exists l,
    c__motions2intervals_idx fuel motions = Returned l
    /\ forall s e, In (s, e) l ->
         forall j, s <= j < e -> sample motions j = Some true.
Proof.
  intros Hfuel. destruct (returns_Post motions fuel Hfuel) as (l & Hrun & Hpost).
  exists l. split; [exact Hrun |]. intros s e Hin.
  exact (rc_true _ _ (Post_In _ _ _ _ Hpost Hin)).
Qed.

Lemma emitted_all_true_witness :
  exists l,
    c__motions2intervals_idx 5 [false; true; true; false] = Returned l
    /\ forall s e, In (s, e) l ->
         forall j, s <= j < e ->
           sample [false; true; true; false] j = Some true.
Proof.
  apply (emitted_all_true [false; true; true; false] 5). cbn. lia.
Defined.

(** C3.  Every emitted interval [(s, e)] satisfies [0 <= s < e <= N], where
    [N] is the length of the input. *)
Theorem emitted_bounds (motions : list bool) (fuel : nat) :
  (length motions < fuel)%nat ->
  exists l,
    c__motions2intervals_idx fuel motions = Returned l
    /\ forall s e, In (s, e) l ->
         0 <= s < e /\ e <= Z.of_nat (length motions).
Proof.
  intros Hfuel. destruct (returns_Post motions fuel Hfuel) as (l & Hrun & Hpost).
  exists l. split; [exact Hrun |]. intros s e Hin.
  pose proof (Post_In _ _ _ _ Hpost Hin) as Hrc.
  pose proof (rc_bounds _ _ Hrc) as Hb.
  pose proof (sample_bounds _ _ _ (rc_right _ _ Hrc)) as Hr.
  cbn in Hb, Hr. lia.
Qed.

Lemma emitted_bounds_witness :
  exists l,
    c__motions2intervals_idx 6 [true; false; false; true; false] = Returned l
    /\ forall s e, In (s, e) l -> 0 <= s < e /\ e <= 5.
Proof.
  apply (emitted_bounds [true; false; false; true; false] 6). cbn. lia.
Defined.

(** C4.  The emitted intervals come in strictly increasing order of start
    and do not overlap: an interval [(s1, e1)] at position [p] of the output
    and an interval [(s2, e2)] at a later position [q] satisfy [s1 < s2] and
    [e1 <= s2]; consecutive intervals are the case [q = p + 1]. *)
Theorem emitted_ordered (motions : list bool) (fuel : nat) :
  (length motions < fuel)%nat ->
  exists l,
    c__motions2intervals_idx fuel motions = Returned l
    /\ forall p q s1 e1 s2 e2,
         (p < q)%nat ->
         nth_error l p = Some (s1, e1) ->
         nth_error l q = Some (s2, e2) ->
         s1 < s2 /\ e1 <= s2.
Proof.
  intros Hfuel. destruct (returns_Post motions fuel Hfuel) as (l & Hrun & Hpost).
  exists l. split; [exact Hrun |]. intros p q s1 e1 s2 e2 Hpq Hp Hq.
  pose proof (StronglySorted_nth before l (proj2 Hpost) _ _ _ _ Hpq Hp Hq)
    as Hlt.
  pose proof (rc_bounds _ _ (Post_In _ _ _ _ Hpost (nth_error_In _ _ Hp)))
    as Hb.
  unfold before in Hlt. cbn in Hlt, Hb. lia.
Qed.

Lemma emitted_ordered_witness :
  exists l,
    c__motions2intervals_idx 7 [true; false; true; true; false; false]
    = Returned l
    /\ forall p q s1 e1 s2 e2,
         (p < q)%nat ->
         nth_error l p = Some (s1, e1) ->
         nth_error l q = Some (s2, e2) ->
         s1 < s2 /\ e1 <= s2.
Proof.
  apply (emitted_ordered [true; false; true; true; false; false] 7). cbn. lia.
Defined.

(** C5.  Every emitted interval [(s, e)] is left-maximal, [s = 0] or
    [motions[s-1]] is false, and two consecutive emitted intervals
    [(s1, e1)], [(s2, e2)] cannot be merged: some index [j] with
    [e1 <= j < s2] holds a false sample. *)
Theorem emitted_left_maximal_unmergeable (motions : list bool) (fuel : nat) :
  (length motions < fuel)%nat ->
  exists l,
    c__motions2intervals_idx fuel motions = Returned l
    /\ (forall s e, In (s, e) l ->
          s = 0 \/ sample motions (s - 1) = Some false)
    /\ (forall p s1 e1 s2 e2,
          nth_error l p = Some (s1, e1) ->
          nth_error l (S p) = Some (s2, e2) ->
          exists j, e1 <= j < s2 /\ sample motions j = Some false).
Proof.
  intros Hfuel. destruct (returns_Post motions fuel Hfuel) as (l & Hrun & Hpost).
  exists l. split; [exact Hrun |]. split.
  - intros s e Hin. exact (rc_left _ _ (Post_In _ _ _ _ Hpost Hin)).
  - intros p s1 e1 s2 e2 Hp Hq.
    pose proof (StronglySorted_nth before l (proj2 Hpost) p (S p) _ _
                  ltac:(lia) Hp Hq) as Hlt.
    unfold before in Hlt. cbn in Hlt.
    exists e1. split; [lia |].
    exact (rc_right _ _ (Post_In _ _ _ _ Hpost (nth_error_In _ _ Hp))).
Qed.

Lemma emitted_left_maximal_unmergeable_witness :
  exists l,
    c__motions2intervals_idx 8 [true; true; false; true; false; true; true]
    = Returned l
    /\ (forall s e, In (s, e) l ->
          s = 0
          \/ sample [true; true; false; true; false; true; true] (s - 1)
             = Some false)
    /\ (forall p s1 e1 s2 e2,
          nth_error l p = Some (s1, e1) ->
          nth_error l (S p) = Some (s2, e2) ->
          exists j,
            e1 <= j < s2
            /\ sample [true; true; false; true; false; true; true] j
               = Some false).
Proof.
  apply (emitted_left_maximal_unmergeable
           [true; true; false; true; false; true; true] 8).
  cbn. lia.
Defined.

(** C6.  A sequence that contains no true value yields the empty interval
    list; in particular the empty sequence does, and so does the all-false
    sequence of any length [n]. *)
Theorem no_true_no_interval (motions : list bool) (fuel : nat) :
  ~ In true motions ->
  (length motions < fuel)%nat ->
  c__motions2intervals_idx fuel motions = Returned []
  /\ c__motions2intervals_idx fuel [] = Returned []
  /\ forall n, c__motions2intervals_idx (n + fuel) (repeat false n)
               = Returned [].
Proof.
  assert (Hgen : forall ms f,
             ~ In true ms -> (length ms < f)%nat ->
             c__motions2intervals_idx f ms = Returned []).
  { intros ms f Hno Hf.
    destruct (returns_Post ms f Hf) as (l & Hrun & Hpost).
    rewrite Hrun. f_equal. apply nil_of_no_member. intros [s e] Hin.
    pose proof (Post_In _ _ _ _ Hpost Hin) as Hrc.
    pose proof (rc_bounds _ _ Hrc) as Hb. cbn in Hb.
    apply Hno. apply (sample_In ms s).
    apply (rc_true _ _ Hrc). cbn. lia. }
  intros Hno Hfuel. split; [| split].
  - apply Hgen; assumption.
  - apply Hgen; [intros [] | cbn; lia].
  - intros n. apply Hgen; [| rewrite repeat_length; lia].
    intros Hin. apply repeat_spec in Hin. discriminate.
Qed.

Lemma no_true_no_interval_witness :
  c__motions2intervals_idx 3 [false; false] = Returned []
  /\ c__motions2intervals_idx 3 [] = Returned []
  /\ forall n, c__motions2intervals_idx (n + 3) (repeat false n)
               = Returned [].
Proof.
  apply (no_true_no_interval [false; false] 3).
  - cbn. intros [H | [H | H]]; [discriminate | discriminate | exact H].
  - cbn. lia.
Defined.

Lemma while_more_fuel motions fuel :
  forall extra s l,
    while fuel motions s = Returned l ->
    while (fuel + extra) motions s = Returned l.
Proof.
  induction fuel as [| fuel IH]; intros extra s l H; [discriminate |].
  cbn [while Nat.add] in *. destruct (i s <? motion_list_size s); [| exact H].
  destruct (body motions s) as [e | s']; [discriminate |].
  apply IH. exact H.
Qed.

(** C7.  On the inputs of the scenario table the function returns the listed
    outputs: [[False, True, True, False]] gives [[(1, 3)]] and
    [[True, False, True, False, True, True]] gives [[(0, 1), (2, 3)]], the
    final run at indices 4 and 5 being dropped; with the fuel the scan needs
    or any more. *)
Theorem scenario_table (extra : nat) :
  c__motions2intervals_idx (5 + extra) [false; true; true; false]
  = Returned [(1, 3)]
  /\ c__motions2intervals_idx (7 + extra)
       [true; false; true; false; true; true]
     = Returned [(0, 1); (2, 3)].
Proof.
  split; apply while_more_fuel; vm_compute; reflexivity.
Qed.

(** C8.  The function is total: with fuel beyond the length of the input
    the loop is seen to stop and a list is returned, no amount of fuel ever
    shows an exception, and every pass through the body that the loop test
    lets in completes and moves [i] forward by exactly one. *)
Theorem total_and_terminating (motions : list bool) (fuel : nat) :
  (length motions < fuel)%nat ->
  (exists l, c__motions2intervals_idx fuel motions = Returned l)
  /\ (forall fuel' e, c__motions2intervals_idx fuel' motions <> Raised e)
  /\ (forall s, reachable motions s -> i s < motion_list_size s ->
        exists s', body motions s = inr s' /\ i s' = i s + 1).
Proof.
  intros Hfuel. split; [| split].
  - destruct (returns_Post motions fuel Hfuel) as (l & Hrun & _).
    exists l. exact Hrun.
  - intros fuel' e. apply while_never_raises. apply init_Inv.
  - intros s Hreach Hlt.
    destruct (body_step motions s (reachable_Inv _ _ Hreach) Hlt)
      as (s' & Hb & _ & Hi & _).
    exists s'. split; assumption.
Qed.

Lemma total_and_terminating_witness :
  (exists l, c__motions2intervals_idx 4 [true; false; true] = Returned l)
  /\ (forall fuel' e,
        c__motions2intervals_idx fuel' [true; false; true] <> Raised e)
  /\ (forall s, reachable [true; false; true] s ->
        i s < motion_list_size s ->
        exists s', body [true; false; true] s = inr s' /\ i s' = i s + 1).
Proof.
  apply (total_and_terminating [true; false; true] 4). cbn. lia.
Defined.

(** ** One call after another, on the heap *)

Lemma deref_old (h0 : Py.heap) o r p :
  Py.deref h0 r = Some p -> Py.deref (h0 ++ [o]) r = Some p.
Proof.
  unfold Py.deref. intros H.
  rewrite nth_error_app1; [exact H |].
  apply nth_error_Some. congruence.
Qed.

Lemma deref_new (h0 : Py.heap) o : Py.deref (h0 ++ [o]) (length h0) = Some o.
Proof.
  unfold Py.deref. rewrite nth_error_app2, Nat.sub_diag by lia. reflexivity.
Qed.

Lemma store_new (h0 : Py.heap) o o' :
  Py.store (h0 ++ [o]) (length h0) o' = h0 ++ [o'].
Proof.
  induction h0 as [| p h0 IH]; cbn; [reflexivity |]. rewrite IH. reflexivity.
Qed.

Lemma deref_fresh (h0 : Py.heap) r p :
  Py.deref h0 r = Some p -> r <> length h0.
Proof.
  unfold Py.deref. intros H Heq.
  assert (Hlt : (r < length h0)%nat) by (apply nth_error_Some; congruence).
  lia.
Qed.

(** A pass through the body on the heap does what the pass by value does,
    and writes to the list of this call only. *)
Lemma body_simulates h0 m motions h f s :
  Py.deref h0 m = Some (Py.PyBoolList motions) ->
  simulates h0 m h f s ->
  match body motions s with
  | inl e => Py.body h f = Py.Raise e
  | inr s' =>
      exists h' f', Py.body h f = Py.Next h' f' /\ simulates h0 m h' f' s'
  end.
Proof.
  intros Hm (Hh & Hfm & Hfr & Hidx & Hx & Hb & Hn & Hi).
  destruct f as [fm fr fidx fx fb fn fi], s as [mi midx xi xv n ix].
  cbn in Hh, Hfm, Hfr, Hidx, Hx, Hb, Hn, Hi. subst.
  unfold body, Py.body, Py.getitem. cbn [Py.motions Py.i i].
  rewrite (deref_old _ _ _ _ Hm).
  destruct (list_getitem motions ix) as [e | v]; [reflexivity |].
  unfold simulates.
  cbv [set_x set_x_idx set_motion_idx append incr_i
       Py.set_x Py.set_x_idx Py.set_motion_idx Py.incr_i Py.append].
  cbn [x_idx x i motion_idx motion_intervals motion_list_size
       Py.x_idx Py.x Py.i Py.motion_idx Py.motion_intervals
       Py.motion_list_size Py.motions fst snd].
  destruct (xi =? -1).
  - destruct v; do 2 eexists; (split; [reflexivity |]); cbn;
      repeat split; reflexivity.
  - destruct v; cbn [negb].
    + do 2 eexists. split; [reflexivity |]. cbn. repeat split; reflexivity.
    + rewrite deref_new, store_new.
      do 2 eexists. split; [reflexivity |]. cbn. repeat split; reflexivity.
Qed.

Lemma while_simulates h0 m motions fuel :
  Py.deref h0 m = Some (Py.PyBoolList motions) ->
  forall h f s l,
    simulates h0 m h f s ->
    while fuel motions s = Returned l ->
    Py.while fuel h f
    = (Py.Returned (length h0), h0 ++ [Py.PyIntervalList l]).
Proof.
  intros Hm. induction fuel as [| fuel IH]; intros h f s l Hsim Hrun;
    [discriminate |].
  cbn [while Py.while] in *.
  pose proof (body_simulates h0 m motions h f s Hm Hsim) as Hbody.
  destruct Hsim as (Hh & _ & Hfr & _ & _ & _ & Hn & Hi).
  rewrite Hn, Hi. destruct (i s <? motion_list_size s).
  - destruct (body motions s) as [e | s']; [discriminate |].
    destruct Hbody as (h' & f' & Hb & Hsim'). rewrite Hb.
    eapply IH; eassumption.
  - injection Hrun as <-. rewrite Hfr, Hh. reflexivity.
Qed.

(** A call on a list of samples allocates one list, returns the reference
    to it, and leaves in it what the embedding by value returns; every
    object the heap had is as it was. *)
Lemma call_returns (h0 : Py.heap) m motions fuel l :
  Py.deref h0 m = Some (Py.PyBoolList motions) ->
  c__motions2intervals_idx fuel motions = Returned l ->
  Py.call fuel h0 m = (Py.Returned (length h0), h0 ++ [Py.PyIntervalList l]).
Proof.
  intros Hm Hrun. unfold Py.call, Py.enter, Py.alloc, Py.len.
  rewrite (deref_old _ _ _ _ Hm).
  apply (while_simulates h0 m motions fuel Hm _ _ (init motions));
    [| exact Hrun].
  unfold simulates. cbn. repeat split; reflexivity.
Qed.

(** C9.  The function is deterministic: no state is carried from one
    invocation to the next.  When it is called on a list of samples and
    then, in the heap the first call has left, called on the same list
    again, both calls return; they return two different list objects that
    hold the same intervals, those the scan of the samples yields; and the
    argument still holds the samples it held. *)
Theorem repeated_call_same_intervals
        (h : Py.heap) (m : Py.ref) (motions : list bool) (fuel1 fuel2 : nat) :
  Py.deref h m = Some (Py.PyBoolList motions) ->
  (length motions < fuel1)%nat ->
  (length motions < fuel2)%nat ->
  exists r1 h1 r2 h2 l,
    Py.call fuel1 h m = (Py.Returned r1, h1)
    /\ Py.call fuel2 h1 m = (Py.Returned r2, h2)
    /\ r1 <> r2
    /\ Py.deref h2 r1 = Some (Py.PyIntervalList l)
    /\ Py.deref h2 r2 = Some (Py.PyIntervalList l)
    /\ Py.deref h2 m = Some (Py.PyBoolList motions)
    /\ c__motions2intervals_idx fuel1 motions = Returned l.
Proof.
  intros Hm Hfuel1 Hfuel2.
  destruct (returns_Post motions fuel1 Hfuel1) as (l & Hrun1 & _).
  destruct (returns_Post motions fuel2 Hfuel2) as (l2 & Hrun2 & _).
  assert (l2 = l) as ->.
  { symmetry.
    exact (while_fuel_irrelevant motions fuel1 fuel2 _ _ _ Hrun1 Hrun2). }
  pose proof (deref_old h (Py.PyIntervalList l) m _ Hm) as Hm1.
  exists (length h), (h ++ [Py.PyIntervalList l]),
         (length (h ++ [Py.PyIntervalList l])),
         ((h ++ [Py.PyIntervalList l]) ++ [Py.PyIntervalList l]), l.
  split; [exact (call_returns h m motions fuel1 l Hm Hrun1) |].
  split; [exact (call_returns _ m motions fuel2 l Hm1 Hrun2) |].
  split; [rewrite length_app; cbn; lia |].
  split; [apply deref_old, deref_new |].
  split; [apply deref_new |].
  split; [apply deref_old; exact Hm1 | exact Hrun1].
Qed.

Lemma repeated_call_same_intervals_witness :
  exists r1 h1 r2 h2 l,
    Py.call 5 [Py.PyBoolList [false; true; false; true]] 0%nat
    = (Py.Returned r1, h1)
    /\ Py.call 9 h1 0%nat = (Py.Returned r2, h2)
    /\ r1 <> r2
    /\ Py.deref h2 r1 = Some (Py.PyIntervalList l)
    /\ Py.deref h2 r2 = Some (Py.PyIntervalList l)
    /\ Py.deref h2 0%nat = Some (Py.PyBoolList [false; true; false; true])
    /\ c__motions2intervals_idx 5 [false; true; false; true] = Returned l.
Proof.
  apply (repeated_call_same_intervals
           [Py.PyBoolList [false; true; false; true]] 0%nat
           [false; true; false; true] 5 9).
  - reflexivity.
  - cbn. lia.
  - cbn. lia.
Defined.

(** C10.  Every emitted interval [(s, e)] satisfies [e < N] and
    [motions[e]] is false: an interval is only ever closed on a false
    sample, so none reaches the end of the input. *)
Theorem emitted_closed_on_false (motions : list bool) (fuel : nat) :
  (length motions < fuel)%nat ->
  exists l,
    c__motions2intervals_idx fuel motions = Returned l
    /\ forall s e, In (s, e) l ->
         e < Z.of_nat (length motions) /\ sample motions e = Some false.
Proof.
  intros Hfuel. destruct (returns_Post motions fuel Hfuel) as (l & Hrun & Hpost).
  exists l. split; [exact Hrun |]. intros s e Hin.
  pose proof (rc_right _ _ (Post_In _ _ _ _ Hpost Hin)) as Hr. cbn in Hr.
  split; [apply (sample_bounds _ _ _ Hr) | exact Hr].
Qed.

Lemma emitted_closed_on_false_witness :
  exists l,
    c__motions2intervals_idx 6 [false; true; false; true; true] = Returned l
    /\ forall s e, In (s, e) l ->
         e < 5 /\ sample [false; true; false; true; true] e = Some false.
Proof.
  apply (emitted_closed_on_false [false; true; false; true; true] 6).
  cbn. lia.
Defined.

(** * The loop against the scan of the list *)

Lemma open_next_range v idx opened :
  0 <= idx -> opened = -1 \/ 0 <= opened < idx ->
  open_next v idx opened = -1 \/ 0 <= open_next v idx opened < idx + 1.
Proof.
  intros Hidx Ho. unfold open_next.
  destruct (Z.eqb_spec opened (-1)); destruct v; lia.
Qed.

(** What a pass through the body leaves, when no [int] overflows. *)
Lemma body_explicit motions s v :
  0 <= i s < CInt.int_max ->
  x_idx s = -1 \/ 0 <= x_idx s < i s ->
  list_getitem motions (i s) = inr v ->
  exists s',
    body motions s = inr s'
    /\ i s' = i s + 1
    /\ motion_list_size s' = motion_list_size s
    /\ x_idx s' = open_next v (i s) (x_idx s)
    /\ motion_intervals s' = motion_intervals s ++ closed_by v (i s) (x_idx s).
Proof.
  intros Hi Hx Hg. destruct s as [mi midx xi xv n ix]. cbn in *.
  assert (Hrange : forall z, 0 <= z <= ix + 1 -> CInt.wrap z = z).
  { intros z Hz. apply wrap_in_range.
    unfold CInt.in_range, CInt.int_min, CInt.int_max in *. lia. }
  unfold body, open_next, closed_by. cbn. rewrite Hg. cbn.
  destruct (Z.eqb_spec xi (-1)) as [Hxi | Hxi].
  - destruct v; assign;
      rewrite ?(Hrange ix), ?(Hrange (ix + 1)), ?(Hrange xi) by lia;
      (eexists; split; [reflexivity |]); cbn;
      rewrite ?app_nil_r; repeat split; try reflexivity; assumption.
  - destruct v; assign;
      rewrite ?(Hrange ix), ?(Hrange (ix + 1)), ?(Hrange xi) by lia;
      (eexists; split; [reflexivity |]); cbn;
      rewrite ?app_nil_r; repeat split; reflexivity.
Qed.

Lemma getitem_middle (pre : list bool) v rest :
  list_getitem (pre ++ v :: rest) (Z.of_nat (length pre)) = inr v.
Proof.
  destruct (getitem_sample (pre ++ v :: rest) (Z.of_nat (length pre)))
    as (w & Hg & Hs).
  { rewrite length_app. cbn. lia. }
  rewrite Hg. f_equal. unfold sample in Hs.
  destruct (Z.ltb_spec (Z.of_nat (length pre)) 0); [lia |].
  rewrite Nat2Z.id, nth_error_app2, Nat.sub_diag in Hs by lia.
  cbn in Hs. congruence.
Qed.

(** From locals that stand at the end of [pre], the loop returns what it
    had closed followed by the scan of [rest], after exactly
    [length rest] passes. *)
Lemma while_runs_from rest :
  forall pre s fuel,
    fits (pre ++ rest) ->
    i s = Z.of_nat (length pre) ->
    motion_list_size s = Z.of_nat (length (pre ++ rest)) ->
    x_idx s = -1 \/ 0 <= x_idx s < i s ->
    ((length rest < fuel)%nat ->
     while fuel (pre ++ rest) s
     = Returned (motion_intervals s ++ runs_from rest (i s) (x_idx s)))
    /\ ((fuel <= length rest)%nat ->
        while fuel (pre ++ rest) s = OutOfFuel).
Proof.
  induction rest as [| v rest IH]; intros pre s fuel Hfits Hi Hn Hx.
  - rewrite app_nil_r in *. split; intros Hfuel.
    + destruct fuel as [| fuel]; [cbn in Hfuel; lia |].
      cbn [while]. destruct (Z.ltb_spec (i s) (motion_list_size s)); [lia |].
      cbn. rewrite app_nil_r. reflexivity.
    + cbn in Hfuel. replace fuel with O by lia. reflexivity.
  - assert (Hlen : Z.of_nat (length (pre ++ v :: rest))
                   = Z.of_nat (length pre) + 1 + Z.of_nat (length rest)).
    { rewrite length_app. cbn [length]. lia. }
    unfold fits in Hfits.
    destruct (body_explicit (pre ++ v :: rest) s v)
      as (s' & Hb & Hi' & Hn' & Hx' & Hm').
    { lia. }
    { exact Hx. }
    { rewrite Hi. apply getitem_middle. }
    assert (Hpre : pre ++ v :: rest = (pre ++ [v]) ++ rest).
    { rewrite <- app_assoc. reflexivity. }
    destruct (IH (pre ++ [v]) s' (Nat.pred fuel)) as [IHret IHout].
    { unfold fits. rewrite <- Hpre. exact Hfits. }
    { rewrite Hi', Hi, length_app. cbn. lia. }
    { rewrite Hn', Hn, Hpre. reflexivity. }
    { rewrite Hx', Hi'. apply open_next_range; [lia | exact Hx]. }
    rewrite <- Hpre in IHret, IHout.
    split; intros Hfuel; cbn [length] in Hfuel.
    + destruct fuel as [| fuel]; [lia |]. cbn [Nat.pred] in IHret.
      cbn [while]. destruct (Z.ltb_spec (i s) (motion_list_size s)); [| lia].
      rewrite Hb, IHret by lia.
      rewrite Hm', Hx', Hi', <- app_assoc. reflexivity.
    + destruct fuel as [| fuel]; [reflexivity |]. cbn [Nat.pred] in IHout.
      cbn [while]. destruct (Z.ltb_spec (i s) (motion_list_size s)); [| lia].
      rewrite Hb. apply IHout. lia.
Qed.

Lemma init_size_fits motions :
  fits motions ->
  motion_list_size (init motions) = Z.of_nat (length motions).
Proof.
  intros Hfits. cbn. apply wrap_in_range.
  unfold fits, CInt.in_range, CInt.int_min, CInt.int_max in *. lia.
Qed.

Lemma returns_runs_from motions fuel :
  fits motions -> (length motions < fuel)%nat ->
  c__motions2intervals_idx fuel motions = Returned (runs_from motions 0 (-1)).
Proof.
  intros Hfits Hfuel.
  destruct (while_runs_from motions [] (init motions) fuel) as [Hret _].
  - exact Hfits.
  - reflexivity.
  - apply init_size_fits. exact Hfits.
  - left. reflexivity.
  - apply Hret. exact Hfuel.
Qed.

(** ** The scan of a concatenation *)

Lemma runs_from_app a :
  forall b idx opened,
    runs_from (a ++ b) idx opened
    = runs_from a idx opened
      ++ runs_from b (idx + Z.of_nat (length a)) (open_after a idx opened).
Proof.
  induction a as [| v a IH]; intros b idx opened; cbn [app runs_from open_after].
  - cbn. f_equal. lia.
  - rewrite IH, <- app_assoc. do 3 f_equal. cbn [length]. lia.
Qed.

Lemma open_after_app a :
  forall b idx opened,
    open_after (a ++ b) idx opened
    = open_after b (idx + Z.of_nat (length a)) (open_after a idx opened).
Proof.
  induction a as [| v a IH]; intros b idx opened; cbn [app open_after].
  - f_equal. cbn. lia.
  - rewrite IH. f_equal. cbn [length]. lia.
Qed.

Lemma open_after_ends_closed a idx :
  ends_closed a -> open_after a idx (-1) = -1.
Proof.
  intros [-> | [p ->]]; [reflexivity |].
  rewrite open_after_app. cbn. unfold open_next.
  destruct (open_after p idx (-1) =? -1); reflexivity.
Qed.

Lemma runs_from_trues k :
  forall idx opened, runs_from (repeat true k) idx opened = [].
Proof.
  induction k as [| k IH]; intros idx opened; [reflexivity |].
  cbn [repeat runs_from]. rewrite IH. unfold closed_by.
  destruct (opened =? -1); reflexivity.
Qed.

Lemma open_after_trues k :
  forall idx opened,
    opened <> -1 -> open_after (repeat true k) idx opened = opened.
Proof.
  induction k as [| k IH]; intros idx opened Ho; [reflexivity |].
  cbn [repeat open_after]. unfold open_next.
  destruct (Z.eqb_spec opened (-1)); [contradiction |]. apply IH. exact Ho.
Qed.

Lemma shift_app d l1 l2 : shift d (l1 ++ l2) = shift d l1 ++ shift d l2.
Proof. apply map_app. Qed.

Lemma runs_from_shift ms :
  forall d idx opened,
    0 <= d -> 0 <= idx -> opened = -1 \/ 0 <= opened ->
    runs_from ms (idx + d) (shift_open d opened)
    = shift d (runs_from ms idx opened).
Proof.
  induction ms as [| v ms IH]; intros d idx opened Hd Hidx Ho; [reflexivity |].
  cbn [runs_from]. rewrite shift_app.
  replace (idx + d + 1) with (idx + 1 + d) by lia.
  assert (Hnext : open_next v (idx + d) (shift_open d opened)
                  = shift_open d (open_next v idx opened)).
  { unfold open_next, shift_open.
    destruct (Z.eqb_spec opened (-1)) as [-> | Hne].
    - cbn. destruct v; [| reflexivity].
      destruct (Z.eqb_spec idx (-1)); [lia | reflexivity].
    - destruct (Z.eqb_spec (opened + d) (-1)); [lia |].
      destruct v; [| reflexivity].
      destruct (Z.eqb_spec opened (-1)); [contradiction | reflexivity]. }
  assert (Hclosed : closed_by v (idx + d) (shift_open d opened)
                    = shift d (closed_by v idx opened)).
  { unfold closed_by, shift_open.
    destruct (Z.eqb_spec opened (-1)) as [-> | Hne]; [reflexivity |].
    destruct (Z.eqb_spec (opened + d) (-1)); [lia |].
    destruct v; reflexivity. }
  rewrite Hnext, Hclosed, IH; [reflexivity | lia | lia |].
  unfold open_next. destruct (Z.eqb_spec opened (-1)); destruct v; lia.
Qed.

Lemma fits_app_l a b : fits (a ++ b) -> fits a.
Proof. unfold fits. rewrite length_app. lia. Qed.

Lemma fits_app_r a b : fits (a ++ b) -> fits b.
Proof. unfold fits. rewrite length_app. lia. Qed.

(** ** Samples spanned *)

Lemma covered_app l1 l2 : covered (l1 ++ l2) = covered l1 + covered l2.
Proof.
  induction l1 as [| v l1 IH]; [reflexivity |].
  cbn [app]. change (covered (v :: l1 ++ l2))
    with (snd v - fst v + covered (l1 ++ l2)).
  change (covered (v :: l1)) with (snd v - fst v + covered l1).
  rewrite IH. lia.
Qed.

Lemma count_true_cons v ms :
  count_true (v :: ms) = (if v then 1 else 0) + count_true ms.
Proof.
  unfold count_true. cbn [count_occ].
  destruct (bool_dec v true) as [-> | Hv].
  - lia.
  - destruct v; [contradiction Hv; reflexivity | lia].
Qed.

Lemma count_true_app a b : count_true (a ++ b) = count_true a + count_true b.
Proof.
  unfold count_true. rewrite count_occ_app. lia.
Qed.

Lemma count_true_trues k : count_true (repeat true k) = Z.of_nat k.
Proof.
  induction k as [| k IH]; [reflexivity |].
  cbn [repeat]. rewrite count_true_cons, IH. lia.
Qed.

(** The samples spanned by the closed intervals, with those of the run left
    open, are the true samples scanned, with those of the run that was open
    at the start. *)
Lemma covered_runs_from ms :
  forall idx opened,
    0 <= idx ->
    covered (runs_from ms idx opened)
    + pending (idx + Z.of_nat (length ms)) (open_after ms idx opened)
    = count_true ms + pending idx opened.
Proof.
  induction ms as [| v ms IH]; intros idx opened Hidx.
  - cbn. replace (idx + 0) with idx by lia. lia.
  - cbn [runs_from open_after length].
    rewrite covered_app, count_true_cons.
    specialize (IH (idx + 1) (open_next v idx opened) ltac:(lia)).
    replace (idx + Z.of_nat (S (length ms)))
      with (idx + 1 + Z.of_nat (length ms)) by lia.
    assert (Hstep : covered (closed_by v idx opened)
                    + pending (idx + 1) (open_next v idx opened)
                    = (if v then 1 else 0) + pending idx opened).
    { unfold closed_by, open_next, pending.
      destruct (Z.eqb_spec opened (-1)) as [-> | Hne]; destruct v;
        unfold covered; cbn [fold_right fst snd]; cbv beta iota.
      - destruct (Z.eqb_spec idx (-1)); lia.
      - reflexivity.
      - destruct (Z.eqb_spec opened (-1)); [contradiction | lia].
      - change (-1 =? -1) with true. cbv iota. lia. }
    lia.
Qed.

(** ** Every closed run is found *)

Lemma sample_middle (pre : list bool) v rest :
  sample (pre ++ v :: rest) (Z.of_nat (length pre)) = Some v.
Proof.
  unfold sample. destruct (Z.ltb_spec (Z.of_nat (length pre)) 0); [lia |].
  rewrite Nat2Z.id, nth_error_app2, Nat.sub_diag by lia. reflexivity.
Qed.

Lemma scan_state_next motions idx opened v :
  0 <= idx ->
  scan_state motions idx opened ->
  sample motions idx = Some v ->
  scan_state motions (idx + 1) (open_next v idx opened).
Proof.
  intros Hidx Hst Hs. unfold scan_state, open_next in *.
  assert (Hprev : idx + 1 - 1 = idx) by lia.
  destruct Hst as [[-> Hleft] | (Hr & Htrue & Hleft)].
  - cbn. destruct v.
    + right. split; [lia |]. split; [| exact Hleft].
      intros j Hj. replace j with idx by lia. exact Hs.
    + left. split; [reflexivity |]. right. rewrite Hprev. exact Hs.
  - destruct (Z.eqb_spec opened (-1)); [lia |]. destruct v.
    + right. split; [lia |]. split; [| exact Hleft].
      apply all_true_extend; assumption.
    + left. split; [reflexivity |]. right. rewrite Hprev. exact Hs.
Qed.

Lemma runs_from_complete rest :
  forall pre opened s e,
    scan_state (pre ++ rest) (Z.of_nat (length pre)) opened ->
    run_closed (pre ++ rest) (s, e) ->
    Z.of_nat (length pre) <= e ->
    In (s, e) (runs_from rest (Z.of_nat (length pre)) opened).
Proof.
  induction rest as [| v rest IH]; intros pre opened s e Hst Hrc He.
  - pose proof (sample_bounds _ _ _ (rc_right _ _ Hrc)) as Hb.
    rewrite app_nil_r in Hb. cbn in Hb. lia.
  - pose proof (sample_middle pre v rest) as Hv.
    destruct Hrc as [Hb Htrue Hleft Hright]. cbn [fst snd] in *.
    cbn [runs_from]. apply in_or_app.
    destruct (Z.eq_dec e (Z.of_nat (length pre))) as [-> | Hne].
    + left. rewrite Hv in Hright. injection Hright as ->.
      unfold closed_by.
      destruct Hst as [[-> Hl] | (Hr & Ht & Hl)].
      * exfalso. destruct Hl as [H0 | Hprev]; [lia |].
        rewrite (Htrue (Z.of_nat (length pre) - 1)) in Hprev by lia.
        discriminate.
      * destruct (Z.eqb_spec opened (-1)); [lia |]. left. f_equal.
        destruct (Z.lt_trichotomy s opened) as [Hlt | [Heq | Hgt]].
        -- exfalso. destruct Hl as [H0 | Hprev]; [lia |].
           rewrite (Htrue (opened - 1)) in Hprev by lia. discriminate.
        -- symmetry. exact Heq.
        -- exfalso. destruct Hleft as [H0 | Hprev]; [lia |].
           rewrite (Ht (s - 1)) in Hprev by lia. discriminate.
    + right.
      assert (Hlen : Z.of_nat (length (pre ++ [v]))
                     = Z.of_nat (length pre) + 1).
      { rewrite length_app. cbn. lia. }
      assert (Hpre : pre ++ v :: rest = (pre ++ [v]) ++ rest).
      { rewrite <- app_assoc. reflexivity. }
      rewrite <- Hlen. apply IH.
      * rewrite Hlen, <- Hpre. apply scan_state_next; [lia | exact Hst | exact Hv].
      * rewrite <- Hpre. constructor; assumption.
      * lia.
Qed.

(** ** Intervals take two samples each *)

Lemma sorted_count motions l :
  Forall (run_closed motions) l -> StronglySorted before l ->
  forall lo,
    Forall (fun v => lo <= fst v) l ->
    2 * Z.of_nat (length l) <= Z.max 0 (Z.of_nat (length motions) - lo).
Proof.
  intros Hcl Hso. induction Hso as [| v l Hso IH Hv]; intros lo Hlo.
  - cbn. lia.
  - inversion Hcl as [| ? ? Hrc Hcl']; subst.
    inversion Hlo as [| ? ? Hlov _]; subst.
    pose proof (rc_bounds _ _ Hrc) as Hb.
    pose proof (sample_bounds _ _ _ (rc_right _ _ Hrc)) as Hr.
    specialize (IH Hcl' (snd v + 1)).
    assert (Hrest : Forall (fun w => snd v + 1 <= fst w) l).
    { eapply Forall_impl; [| exact Hv]. unfold before. intros w Hw. lia. }
    specialize (IH Hrest). cbn [length]. lia.
Qed.

Lemma runs_from_ends_after ms :
  forall idx opened s e, In (s, e) (runs_from ms idx opened) -> idx <= e.
Proof.
  induction ms as [| v ms IH]; intros idx opened s e Hin; [contradiction |].
  cbn [runs_from] in Hin. apply in_app_or in Hin. destruct Hin as [Hin | Hin].
  - unfold closed_by in Hin. destruct (opened =? -1); [contradiction |].
    destruct v; [contradiction |].
    destruct Hin as [Heq | []]. injection Heq as _ <-. lia.
  - apply IH in Hin. lia.
Qed.

(** * Further properties of [c__motions2intervals_idx] *)

(** X1.  On an input whose length an [int] holds, the returned list holds
    exactly the closed runs: [(s, e)] is emitted if and only if the samples
    of [s, e) are true, [s] is [0] or follows a false sample, and the
    sample at [e] is false. *)
Theorem emitted_iff_closed_run (motions : list bool) (fuel : nat) :
  fits motions ->
  (length motions < fuel)%nat ->
  exists l,
    c__motions2intervals_idx fuel motions = Returned l
    /\ forall s e,
         In (s, e) l
         <-> (0 <= s < e
              /\ (forall j, s <= j < e -> sample motions j = Some true)
              /\ (s = 0 \/ sample motions (s - 1) = Some false)
              /\ sample motions e = Some false).
Proof.
  intros Hfits Hfuel.
  destruct (returns_Post motions fuel Hfuel) as (l & Hrun & Hpost).
  exists l. split; [exact Hrun |]. intros s e. split.
  - intros Hin. destruct (Post_In _ _ _ _ Hpost Hin) as [Hb Ht Hl Hr].
    cbn [fst snd] in *. repeat split; try assumption; lia.
  - intros (Hb & Ht & Hl & Hr).
    rewrite (returns_runs_from motions fuel Hfits Hfuel) in Hrun.
    injection Hrun as <-.
    apply (runs_from_complete motions [] (-1) s e).
    + left. split; [reflexivity | left; reflexivity].
    + constructor; cbn [fst snd]; assumption.
    + cbn. lia.
Qed.

Lemma emitted_iff_closed_run_witness :
  exists l,
    c__motions2intervals_idx 7 [true; true; false; true; false; true]
    = Returned l
    /\ forall s e,
         In (s, e) l
         <-> (0 <= s < e
              /\ (forall j, s <= j < e ->
                    sample [true; true; false; true; false; true] j
                    = Some true)
              /\ (s = 0
                  \/ sample [true; true; false; true; false; true] (s - 1)
                     = Some false)
              /\ sample [true; true; false; true; false; true] e
                 = Some false).
Proof.
  apply (emitted_iff_closed_run [true; true; false; true; false; true] 7).
  - unfold fits, CInt.int_max. cbn. lia.
  - cbn. lia.
Defined.

(** X2.  One false sample after a trailing run makes the function emit it:
    when [pre] is empty or ends on a false sample, the input [pre] followed
    by [k + 1] true samples and one false sample yields the intervals of
    the input without that last sample, followed by
    [(length pre, length pre + k + 1)]. *)
Theorem sentinel_closes_trailing_run (pre : list bool) (k fuel : nat) :
  ends_closed pre ->
  fits ((pre ++ repeat true (S k)) ++ [false]) ->
  (length ((pre ++ repeat true (S k)) ++ [false]) < fuel)%nat ->
  exists l,
    c__motions2intervals_idx fuel (pre ++ repeat true (S k)) = Returned l
    /\ c__motions2intervals_idx fuel ((pre ++ repeat true (S k)) ++ [false])
       = Returned (l ++ [(Z.of_nat (length pre),
                          Z.of_nat (length pre) + Z.of_nat (S k))]).
Proof.
  intros Hpre Hfits Hfuel.
  exists (runs_from (pre ++ repeat true (S k)) 0 (-1)). split.
  - apply returns_runs_from; [exact (fits_app_l _ _ Hfits) |].
    rewrite length_app in Hfuel. lia.
  - rewrite (returns_runs_from _ fuel Hfits Hfuel). f_equal.
    rewrite (runs_from_app (pre ++ repeat true (S k))). f_equal.
    rewrite open_after_app, (open_after_ends_closed pre 0 Hpre).
    cbn [repeat open_after]. cbn [open_next Z.eqb].
    change (open_next true (0 + Z.of_nat (length pre)) (-1))
      with (0 + Z.of_nat (length pre)).
    rewrite open_after_trues by lia.
    cbn [runs_from]. unfold closed_by.
    destruct (Z.eqb_spec (0 + Z.of_nat (length pre)) (-1)); [lia |].
    rewrite length_app. cbn [length]. rewrite repeat_length.
    cbn [app]. do 2 f_equal; lia.
Qed.

Lemma sentinel_closes_trailing_run_witness :
  exists l,
    c__motions2intervals_idx 7 ([true; false] ++ repeat true 3) = Returned l
    /\ c__motions2intervals_idx 7 (([true; false] ++ repeat true 3) ++ [false])
       = Returned (l ++ [(2, 2 + 3)]).
Proof.
  apply (sentinel_closes_trailing_run [true; false] 2 7).
  - right. exists [true]. reflexivity.
  - unfold fits, CInt.int_max. cbn. lia.
  - cbn. lia.
Defined.

(** X3.  Samples that follow do not change what was found before them: on
    [a ++ b] the function returns the intervals it returns on [a], in the
    same order, followed by intervals that end at index [length a] or
    later. *)
Theorem prefix_intervals_kept (a b : list bool) (fuel : nat) :
  fits (a ++ b) ->
  (length (a ++ b) < fuel)%nat ->
  exists la ext,
    c__motions2intervals_idx fuel a = Returned la
    /\ c__motions2intervals_idx fuel (a ++ b) = Returned (la ++ ext)
    /\ forall s e, In (s, e) ext -> Z.of_nat (length a) <= e.
Proof.
  intros Hfits Hfuel.
  exists (runs_from a 0 (-1)),
         (runs_from b (0 + Z.of_nat (length a)) (open_after a 0 (-1))).
  split; [| split].
  - apply returns_runs_from; [exact (fits_app_l _ _ Hfits) |].
    rewrite length_app in Hfuel. lia.
  - rewrite (returns_runs_from _ fuel Hfits Hfuel), runs_from_app.
    reflexivity.
  - intros s e Hin. apply runs_from_ends_after in Hin. lia.
Qed.

Lemma prefix_intervals_kept_witness :
  exists la ext,
    c__motions2intervals_idx 8 [false; true; false; true] = Returned la
    /\ c__motions2intervals_idx 8
         ([false; true; false; true] ++ [true; false; true])
       = Returned (la ++ ext)
    /\ forall s e, In (s, e) ext -> 4 <= e.
Proof.
  apply (prefix_intervals_kept [false; true; false; true] [true; false; true] 8).
  - unfold fits, CInt.int_max. cbn. lia.
  - cbn. lia.
Defined.

(** X4.  The extraction splits at a boundary where no run is open: when [a]
    is empty or ends on a false sample, the intervals of [a ++ b] are those
    of [a] followed by those of [b] moved [length a] positions to the
    right. *)
Theorem splits_at_closed_boundary (a b : list bool) (fuel : nat) :
  ends_closed a ->
  fits (a ++ b) ->
  (length (a ++ b) < fuel)%nat ->
  exists la lb,
    c__motions2intervals_idx fuel a = Returned la
    /\ c__motions2intervals_idx fuel b = Returned lb
    /\ c__motions2intervals_idx fuel (a ++ b)
       = Returned (la ++ shift (Z.of_nat (length a)) lb).
Proof.
  intros Ha Hfits Hfuel. rewrite length_app in Hfuel.
  exists (runs_from a 0 (-1)), (runs_from b 0 (-1)). split; [| split].
  - apply returns_runs_from; [exact (fits_app_l _ _ Hfits) | lia].
  - apply returns_runs_from; [exact (fits_app_r _ _ Hfits) | lia].
  - rewrite returns_runs_from; [| exact Hfits | rewrite length_app; lia].
    rewrite runs_from_app, (open_after_ends_closed a 0 Ha).
    rewrite <- (runs_from_shift b (Z.of_nat (length a)) 0 (-1));
      [reflexivity | lia | lia | left; reflexivity].
Qed.

Lemma splits_at_closed_boundary_witness :
  exists la lb,
    c__motions2intervals_idx 8 [true; true; false] = Returned la
    /\ c__motions2intervals_idx 8 [false; true; false; true] = Returned lb
    /\ c__motions2intervals_idx 8
         ([true; true; false] ++ [false; true; false; true])
       = Returned (la ++ shift 3 lb).
Proof.
  apply (splits_at_closed_boundary [true; true; false]
           [false; true; false; true] 8).
  - right. exists [true; true]. reflexivity.
  - unfold fits, CInt.int_max. cbn. lia.
  - cbn. lia.
Defined.

(** X5.  The emitted intervals span every true sample but those of the
    trailing run: when [pre] is empty or ends on a false sample, the
    intervals returned on [pre] followed by [k] true samples span as many
    samples as the input has true samples, less [k]. *)
Theorem covered_true_samples (pre : list bool) (k fuel : nat) :
  ends_closed pre ->
  fits (pre ++ repeat true k) ->
  (length (pre ++ repeat true k) < fuel)%nat ->
  exists l,
    c__motions2intervals_idx fuel (pre ++ repeat true k) = Returned l
    /\ covered l = count_true (pre ++ repeat true k) - Z.of_nat k.
Proof.
  intros Hpre Hfits Hfuel.
  exists (runs_from (pre ++ repeat true k) 0 (-1)).
  split; [apply returns_runs_from; assumption |].
  rewrite runs_from_app, runs_from_trues, app_nil_r.
  rewrite count_true_app, count_true_trues.
  pose proof (covered_runs_from pre 0 (-1) ltac:(lia)) as Hc.
  rewrite (open_after_ends_closed pre 0 Hpre) in Hc.
  change (pending (0 + Z.of_nat (length pre)) (-1)) with 0 in Hc.
  change (pending 0 (-1)) with 0 in Hc. lia.
Qed.

Lemma covered_true_samples_witness :
  exists l,
    c__motions2intervals_idx 9
      ([true; true; false; true; false] ++ repeat true 3) = Returned l
    /\ covered l
       = count_true ([true; true; false; true; false] ++ repeat true 3) - 3.
Proof.
  apply (covered_true_samples [true; true; false; true; false] 3 9).
  - right. exists [true; true; false; true]. reflexivity.
  - unfold fits, CInt.int_max. cbn. lia.
  - cbn. lia.
Defined.

(** X6.  Every interval takes a true sample and the false sample that
    closes it: on an input of length [N] the function returns at most
    [N / 2] intervals. *)
Theorem at_most_half (motions : list bool) (fuel : nat) :
  (length motions < fuel)%nat ->
  exists l,
    c__motions2intervals_idx fuel motions = Returned l
    /\ 2 * Z.of_nat (length l) <= Z.of_nat (length motions).
Proof.
  intros Hfuel.
  destruct (returns_Post motions fuel Hfuel) as (l & Hrun & Hcl & Hso).
  exists l. split; [exact Hrun |].
  pose proof (sorted_count motions l Hcl Hso 0) as Hcount.
  assert (Hlo : Forall (fun v : interval => 0 <= fst v) l).
  { eapply Forall_impl; [| exact Hcl]. intros v Hv.
    pose proof (rc_bounds _ _ Hv). lia. }
  specialize (Hcount Hlo). lia.
Qed.

Lemma at_most_half_witness :
  exists l,
    c__motions2intervals_idx 6 [true; false; true; false; true] = Returned l
    /\ 2 * Z.of_nat (length l) <= 5.
Proof.
  apply (at_most_half [true; false; true; false; true] 6). cbn. lia.
Defined.

(** X7.  The scan is one pass over the input: on an input of length [N]
    that an [int] holds, the loop stops after exactly [N] passes through
    its body, so that fuel for [N] loop tests is not enough and fuel for
    [N + 1] is. *)
Theorem exactly_one_pass (motions : list bool) (fuel : nat) :
  fits motions ->
  (c__motions2intervals_idx fuel motions = OutOfFuel
   <-> (fuel <= length motions)%nat).
Proof.
  intros Hfits. split.
  - intros Hout. destruct (Nat.le_gt_cases fuel (length motions)) as [Hle | Hgt];
      [exact Hle |].
    rewrite (returns_runs_from motions fuel Hfits Hgt) in Hout. discriminate.
  - intros Hle.
    destruct (while_runs_from motions [] (init motions) fuel) as [_ Hout].
    + exact Hfits.
    + reflexivity.
    + apply init_size_fits. exact Hfits.
    + left. reflexivity.
    + apply Hout. exact Hle.
Qed.

Lemma exactly_one_pass_witness :
  c__motions2intervals_idx 3 [true; false; true] = OutOfFuel
  <-> (3 <= 3)%nat.
Proof.
  apply (exactly_one_pass [true; false; true] 3).
  unfold fits, CInt.int_max. cbn. lia.
Defined.

(** X8.  The length of the input is stored in an [int]: when it is from
    [2^31] up to [2^32 - 1] the stored value is negative, the loop test
    fails at once, and the function returns the empty list whatever the
    samples are. *)
Theorem truncated_length_scans_nothing (motions : list bool) (fuel : nat) :
  2 ^ 31 <= Z.of_nat (length motions) < 2 ^ 32 ->
  (0 < fuel)%nat ->
  c__motions2intervals_idx fuel motions = Returned [].
Proof.
  intros Hlen Hfuel. destruct fuel as [| fuel]; [lia |].
  unfold c__motions2intervals_idx. cbn [while].
  assert (Hneg : motion_list_size (init motions) < 0).
  { cbn. unfold CInt.wrap.
    replace (Z.of_nat (length motions) + 2 ^ 31)
      with (Z.of_nat (length motions) - 2 ^ 31 + 1 * 2 ^ 32) by lia.
    rewrite Z.mod_add by lia. rewrite Z.mod_small by lia. lia. }
  destruct (Z.ltb_spec (i (init motions)) (motion_list_size (init motions)))
    as [Hlt | _]; [cbn in Hlt; cbn in Hneg; lia | reflexivity].
Qed.

Lemma truncated_length_scans_nothing_witness :
  c__motions2intervals_idx 1
    (true :: false :: repeat false (Z.to_nat (2 ^ 31 - 2)))
  = Returned [].
Proof.
  apply (truncated_length_scans_nothing
           (true :: false :: repeat false (Z.to_nat (2 ^ 31 - 2))) 1).
  - cbn [length]. rewrite repeat_length. lia.
  - lia.
Defined.

(** X9.  Every subscript the loop evaluates is an index of the list, never
    negative and never past the end, the increment of [i] that follows does
    not overflow, and [x_idx] is [-1] or the index of a sample before
    [i]: the value [-1] is never the start of a run. *)
Theorem subscript_in_bounds (motions : list bool) (s : locals) :
  reachable motions s ->
  i s < motion_list_size s ->
  0 <= i s < Z.of_nat (length motions)
  /\ CInt.in_range (i s + 1)
  /\ (x_idx s = -1 \/ 0 <= x_idx s < i s)
  /\ exists v, list_getitem motions (i s) = inr v
               /\ sample motions (i s) = Some v.
Proof.
  intros Hreach Hlt.
  destruct (reachable_Inv _ _ Hreach) as [[Hsz Hmax] Hi Hrun _ _ _].
  split; [lia |]. split.
  - unfold CInt.in_range, CInt.int_min, CInt.int_max in *. lia.
  - split.
    + destruct Hrun as [[Hx _] | [Hx _]]; [left; exact Hx | right; exact Hx].
    + apply getitem_sample. lia.
Qed.

Lemma subscript_in_bounds_witness :
  0 <= i (init [true; false]) < 2
  /\ CInt.in_range (i (init [true; false]) + 1)
  /\ (x_idx (init [true; false]) = -1
      \/ 0 <= x_idx (init [true; false]) < i (init [true; false]))
  /\ exists v, list_getitem [true; false] (i (init [true; false])) = inr v
               /\ sample [true; false] (i (init [true; false])) = Some v.
Proof.
  apply (subscript_in_bounds [true; false] (init [true; false])).
  - apply reach_init.
  - vm_compute. reflexivity.
Defined.
